(** * InfoAPI: the JSON-RPC binding layer of src/apis/info/api.ts

    Every method of the [InfoAPI] class hands a method name, and most of
    them a freshly built parameter object, to the inherited call primitive
    [callMethod], and projects one field out of [response.data["result"]].  The development
    embeds the twelve methods, the constructor and the shipped example
    [examples/info/getNodeIP.ts], and proves the properties the
    specification states about them. *)

From Stdlib Require Import ZArith.
From stdpp Require Import gmap strings list fin_maps.

Open Scope string_scope.
Open Scope list_scope.
Set Warnings "-register-all".

(** ** Values *)

(** Values decoded from a JSON body, plus [undefined], which a property read
    yields for an absent key.  The binding does no arithmetic, so a number is
    carried as an integer payload. *)
Inductive JSValue : Type :=
| JUndefined
| JNull
| JBool (b : bool)
| JNum (n : Z)
| JStr (s : string)
| JArr (items : list JSValue)
| JObj (fields : gmap string JSValue).

(** What a promise can be rejected with: the [TypeError] that the engine
    raises (reading a property of [undefined] or [null], calling a value that
    is no function), or whatever the call primitive rejected with. *)
Inductive Reason : Type :=
| TypeError
| External (payload : JSValue).

(** Completion of a synchronous piece of code. *)
Inductive Completion (A : Type) : Type :=
| Return (v : A)
| Throw (e : Reason).
Arguments Return {A} v.
Arguments Throw {A} e.

(** State of a promise once it is no longer pending. *)
Inductive Settled (A : Type) : Type :=
| Fulfilled (v : A)
| Rejected (e : Reason).
Arguments Fulfilled {A} v.
Arguments Rejected {A} e.

#[global] Instance Completion_ret : MRet Completion := @Return.
#[global] Instance Completion_bind : MBind Completion :=
  λ A B f c, match c with Return v => f v | Throw e => Throw e end.

(** The property names the binding reads.  None of them is an array index,
    ["length"], or a member inherited from a prototype, so on a decoded JSON
    value such a read sees own properties only. *)
Inductive PropertyKey : Type :=
| k_result | k_nodeID | k_networkID | k_success
| k_blockchainID | k_version | k_networkName | k_peers.

Definition key_name (k : PropertyKey) : string :=
  match k with
  | k_result => "result"
  | k_nodeID => "nodeID"
  | k_networkID => "networkID"
  | k_success => "success"
  | k_blockchainID => "blockchainID"
  | k_version => "version"
  | k_networkName => "networkName"
  | k_peers => "peers"
  end.

(** [v[k]]: throws on [undefined] and [null], is [undefined] for a key the
    object lacks and for every primitive or array receiver. *)
Definition get_prop (v : JSValue) (k : PropertyKey) : Completion JSValue :=
  match v with
  | JUndefined | JNull => Throw TypeError
  | JObj fields => Return (default JUndefined (fields !! key_name k))
  | JBool _ | JNum _ | JStr _ | JArr _ => Return JUndefined
  end.

(** Modelled from the spec: the [RequestResponseData] class of utils/types,
    whose declaration is not part of the sources at hand; the binding reads
    its [data] member only, the decoded response envelope. *)
Record RequestResponseData : Type := { data : JSValue }.

(** ** Asynchronous computations *)

(** Parameter objects are allocated on a heap and passed by reference. *)
Abbreviation loc := nat (only parsing).

(** A computation is a tree of the effects the binding and the example
    perform: allocating an object literal, calling the inherited
    [callMethod] (a suspension point: the continuation receives the settled
    promise), and writing to the console. *)
Inductive Async (A : Type) : Type :=
| Settle (r : Settled A)
| NewObject (fields : gmap string JSValue) (k : loc → Async A)
| CallMethod (method : string) (params : option loc)
    (k : Settled RequestResponseData → Async A)
| ConsoleLog (v : JSValue) (k : Async A).
Arguments Settle {A} r.
Arguments NewObject {A} fields k.
Arguments CallMethod {A} method params k.
Arguments ConsoleLog {A} v k.

(** [await p; f]: a rejection of [p] skips [f]. *)
Fixpoint bind {A B : Type} (p : Async A) (f : A → Async B) : Async B :=
  match p with
  | Settle (Fulfilled a) => f a
  | Settle (Rejected e) => Settle (Rejected e)
  | NewObject fields k => NewObject fields (λ l, bind (k l) f)
  | CallMethod method params k => CallMethod method params (λ r, bind (k r) f)
  | ConsoleLog v k => ConsoleLog v (bind k f)
  end.

#[global] Instance Async_ret : MRet Async := λ A a, Settle (Fulfilled a).
#[global] Instance Async_bind : MBind Async := λ A B f p, bind p f.

Definition settle_completion {A : Type} (c : Completion A) : Settled A :=
  match c with
  | Return v => Fulfilled v
  | Throw e => Rejected e
  end.

(** [p.then(cb)]: runs [cb] on the fulfilment value, turns a throw of [cb]
    into a rejection, and passes a rejection of [p] on untouched. *)
Definition then_ {A B : Type} (p : Async A) (cb : A → Completion B) : Async B :=
  bind p (λ a, Settle (settle_completion (cb a))).

(** An object literal [{...}]. *)
Definition new_object (fields : gmap string JSValue) : Async loc :=
  NewObject fields (λ l, Settle (Fulfilled l)).

(** [this.callMethod(method, params)]; [params] is an optional parameter of
    the primitive, [None] when the caller leaves it out. *)
Definition callMethod (method : string) (params : option loc)
  : Async RequestResponseData :=
  CallMethod method params Settle.

Definition console_log (v : JSValue) : Async unit :=
  ConsoleLog v (Settle (Fulfilled tt)).

(** ** The class *)

Module InfoAPI.

(** TypeScript erases the [string] annotations of the parameters: at run
    time a parameter holds whatever value the caller passed, so the
    methods take [JSValue]s; a well-typed caller passes [JStr]s. *)

Definition getNodeID : Async JSValue :=
  params ← new_object ∅;
  then_ (callMethod "info.getNodeID" (Some params)) (λ response,
    result ← get_prop (data response) k_result; get_prop result k_nodeID).

Definition getNetworkID : Async JSValue :=
  params ← new_object ∅;
  then_ (callMethod "info.getNetworkID" (Some params)) (λ response,
    result ← get_prop (data response) k_result; get_prop result k_networkID).

Definition alias (endpoint alias : JSValue) : Async JSValue :=
  params ← new_object (<["endpoint" := endpoint]> (<["alias" := alias]> ∅));
  then_ (callMethod "info.alias" (Some params)) (λ response,
    result ← get_prop (data response) k_result; get_prop result k_success).

Definition aliasChain (chain alias : JSValue) : Async JSValue :=
  params ← new_object (<["chain" := chain]> (<["alias" := alias]> ∅));
  then_ (callMethod "info.aliasChain" (Some params)) (λ response,
    result ← get_prop (data response) k_result; get_prop result k_success).

Definition getBlockchainID (alias : JSValue) : Async JSValue :=
  params ← new_object (<["alias" := alias]> ∅);
  then_ (callMethod "info.getBlockchainID" (Some params)) (λ response,
    result ← get_prop (data response) k_result;
    get_prop result k_blockchainID).

Definition getNodeVersion : Async JSValue :=
  then_ (callMethod "info.getNodeVersion" None) (λ response,
    result ← get_prop (data response) k_result; get_prop result k_version).

Definition getNetworkName : Async JSValue :=
  then_ (callMethod "info.getNetworkName" None) (λ response,
    result ← get_prop (data response) k_result;
    get_prop result k_networkName).

Definition lockProfile (filename : JSValue) : Async JSValue :=
  params ← new_object (<["fileName" := filename]> ∅);
  then_ (callMethod "info.lockProfile" (Some params)) (λ response,
    result ← get_prop (data response) k_result; get_prop result k_success).

Definition memoryProfile (filename : JSValue) : Async JSValue :=
  params ← new_object (<["fileName" := filename]> ∅);
  then_ (callMethod "info.memoryProfile" (Some params)) (λ response,
    result ← get_prop (data response) k_result; get_prop result k_success).

Definition peers : Async JSValue :=
  then_ (callMethod "info.peers" None) (λ response,
    result ← get_prop (data response) k_result; get_prop result k_peers).

Definition startCPUProfiler (filename : JSValue) : Async JSValue :=
  params ← new_object (<["fileName" := filename]> ∅);
  then_ (callMethod "info.startCPUProfiler" (Some params)) (λ response,
    result ← get_prop (data response) k_result; get_prop result k_success).

Definition stopCPUProfiler : Async JSValue :=
  then_ (callMethod "info.stopCPUProfiler" None) (λ response,
    result ← get_prop (data response) k_result; get_prop result k_success).

(** The superclass constructor [JRPCAPI(core, baseurl)] is not part of
    the sources at hand and is taken as a parameter; it builds the state
    of the instance. *)
Section Constructor.
Context {AvalancheCore JRPCAPI : Type}.
Variable super : AvalancheCore → string → JRPCAPI.

(** [constructor(core, baseurl = "/ext/info") { super(core, baseurl); }]:
    a parameter whose argument is left out takes its default. *)
Definition constructor (core : AvalancheCore) (baseurl : option string)
  : JRPCAPI :=
  super core (default "/ext/info" baseurl).
End Constructor.

End InfoAPI.

(** The members the class body declares, by name. *)
Inductive Operation : Type :=
| GetNodeID | GetNetworkID | Alias | AliasChain | GetBlockchainID
| GetNodeVersion | GetNetworkName | LockProfile | MemoryProfile | Peers
| StartCPUProfiler | StopCPUProfiler.

Definition operations : list Operation :=
  [GetNodeID; GetNetworkID; Alias; AliasChain; GetBlockchainID;
   GetNodeVersion; GetNetworkName; LockProfile; MemoryProfile; Peers;
   StartCPUProfiler; StopCPUProfiler].

Definition op_name (op : Operation) : string :=
  match op with
  | GetNodeID => "getNodeID"
  | GetNetworkID => "getNetworkID"
  | Alias => "alias"
  | AliasChain => "aliasChain"
  | GetBlockchainID => "getBlockchainID"
  | GetNodeVersion => "getNodeVersion"
  | GetNetworkName => "getNetworkName"
  | LockProfile => "lockProfile"
  | MemoryProfile => "memoryProfile"
  | Peers => "peers"
  | StartCPUProfiler => "startCPUProfiler"
  | StopCPUProfiler => "stopCPUProfiler"
  end.

(** [info.op(args...)]: a parameter without an argument is [undefined],
    surplus arguments are dropped. *)
Definition apply (op : Operation) (args : list JSValue) : Async JSValue :=
  let arg i := nth i args JUndefined in
  match op with
  | GetNodeID => InfoAPI.getNodeID
  | GetNetworkID => InfoAPI.getNetworkID
  | Alias => InfoAPI.alias (arg 0) (arg 1)
  | AliasChain => InfoAPI.aliasChain (arg 0) (arg 1)
  | GetBlockchainID => InfoAPI.getBlockchainID (arg 0)
  | GetNodeVersion => InfoAPI.getNodeVersion
  | GetNetworkName => InfoAPI.getNetworkName
  | LockProfile => InfoAPI.lockProfile (arg 0)
  | MemoryProfile => InfoAPI.memoryProfile (arg 0)
  | Peers => InfoAPI.peers
  | StartCPUProfiler => InfoAPI.startCPUProfiler (arg 0)
  | StopCPUProfiler => InfoAPI.stopCPUProfiler
  end.

(** Own member of an instance with the given name, if any. *)
Definition own_member (name : string) : option Operation :=
  find (λ op, String.eqb (op_name op) name) operations.

(** ** The shipped example, examples/info/getNodeIP.ts *)

Module Example.
Section Main.
(** Members an instance gets from the superclass, which is not part of
    the sources at hand: by name, what calling each one does. *)
Variable inherited : string → option (list JSValue → Async JSValue).

(** [info.name(args...)]: the class's own fields come first; calling a
    member that is [undefined] throws. *)
Definition call_member (name : string) (args : list JSValue)
  : Async JSValue :=
  match own_member name with
  | Some op => apply op args
  | None =>
      match inherited name with
      | Some method => method args
      | None => Settle (Rejected TypeError)
      end
  end.

Definition main : Async unit :=
  nodeIP ← call_member "getNodeIP" [];
  console_log nodeIP.
End Main.
End Example.

(** ** The world a computation runs in *)

Record Request : Type := { req_method : string; req_params : option loc }.

Record World : Type := {
  heap : list (gmap string JSValue);   (* object at address [l] is [heap !! l] *)
  sent : list Request;                 (* calls of [callMethod], oldest first *)
  console : list JSValue               (* values printed, oldest first *)
}.

Definition alloc (fields : gmap string JSValue) (w : World) : loc * World :=
  (length (heap w),
   {| heap := heap w ++ [fields]; sent := sent w; console := console w |}).

Definition record (req : Request) (w : World) : World :=
  {| heap := heap w; sent := sent w ++ [req]; console := console w |}.

Definition print (v : JSValue) (w : World) : World :=
  {| heap := heap w; sent := sent w; console := console w ++ [v] |}.

(** The second argument of a recorded call, as the primitive sees it. *)
Inductive Argument : Type :=
| Omitted
| Object (fields : gmap string JSValue).

Definition argument_sent (w : World) (req : Request) : option Argument :=
  match req_params req with
  | None => Some Omitted
  | Some l => Object <$> heap w !! l
  end.

(** The call primitive lives in the superclass [JRPCAPI], outside the
    sources at hand: it is a parameter that settles each request, knowing the
    world in which the request is made. *)
Definition Transport : Type := World → Request → Settled RequestResponseData.

(** Runs a computation to the end, every call being settled on the spot. *)
Fixpoint run {A : Type} (T : Transport) (p : Async A) (w : World)
  : Settled A * World :=
  match p with
  | Settle r => (r, w)
  | NewObject fields k => let '(l, w') := alloc fields w in run T (k l) w'
  | CallMethod method params k =>
      let req := {| req_method := method; req_params := params |} in
      let w' := record req w in
      run T (k (T w' req)) w'
  | ConsoleLog v k => run T k (print v w)
  end.

(** ** Interleaved invocations *)

(** An invocation runs up to its call of [callMethod] and then waits for the
    promise; the rest runs when the promise settles. *)
Inductive Task (A : Type) : Type :=
| Pending (req : Request) (k : Settled RequestResponseData → Async A)
| Finished (r : Settled A).
Arguments Pending {A} req k.
Arguments Finished {A} r.

Fixpoint start {A : Type} (p : Async A) (w : World) : Task A * World :=
  match p with
  | Settle r => (Finished r, w)
  | NewObject fields k => let '(l, w') := alloc fields w in start (k l) w'
  | CallMethod method params k =>
      let req := {| req_method := method; req_params := params |} in
      (Pending req k, record req w)
  | ConsoleLog v k => start k (print v w)
  end.

(** What the primitive answers to the call a computation makes first. *)
Definition response {A : Type} (T : Transport) (p : Async A) (w : World)
  : option (Settled RequestResponseData) :=
  match start p w with
  | (Pending req _, w') => Some (T w' req)
  | (Finished _, _) => None
  end.

Inductive Event : Type :=
| Invoke (op : Operation) (args : list JSValue)
| Deliver (i : nat) (o : Settled RequestResponseData).

Record Config : Type := { world : World; tasks : list (Task JSValue) }.

(** One turn of the event loop: a caller invokes an operation, or the
    promise task [i] waits for settles (a promise settles once: delivery to a
    finished task changes nothing). *)
Definition step (cfg : Config) (ev : Event) : Config :=
  match ev with
  | Invoke op args =>
      let '(t, w') := start (apply op args) (world cfg) in
      {| world := w'; tasks := tasks cfg ++ [t] |}
  | Deliver i o =>
      match tasks cfg !! i with
      | Some (Pending _ k) =>
          let '(t, w') := start (k o) (world cfg) in
          {| world := w'; tasks := <[i := t]> (tasks cfg) |}
      | _ => cfg
      end
  end.

Definition exec (cfg : Config) (evs : list Event) : Config :=
  fold_left step evs cfg.

(** Two invocations in flight at once: both are made before either promise
    settles, and the promises settle in either order. *)
Definition concurrently (op1 : Operation) (args1 : list JSValue)
    (op2 : Operation) (args2 : list JSValue)
    (o1 o2 : Settled RequestResponseData) (second_first : bool) : list Event :=
  [Invoke op1 args1; Invoke op2 args2]
  ++ (if second_first then [Deliver 1 o2; Deliver 0 o1]
      else [Deliver 0 o1; Deliver 1 o2]).

(** ** The documented interface *)

(** Request body of section 6: the method is ["<group>.<operation>"]. *)
Definition method_name (op : Operation) : string := "info." +:+ op_name op.

(** Field of [result] each operation returns. *)
Definition result_key (op : Operation) : PropertyKey :=
  match op with
  | GetNodeID => k_nodeID
  | GetNetworkID => k_networkID
  | GetBlockchainID => k_blockchainID
  | GetNodeVersion => k_version
  | GetNetworkName => k_networkName
  | Peers => k_peers
  | Alias | AliasChain | LockProfile | MemoryProfile
  | StartCPUProfiler | StopCPUProfiler => k_success
  end.

(** Operations of the catalogue that take no input. *)
Definition zero_input (op : Operation) : bool :=
  match op with
  | GetNodeID | GetNetworkID | GetNodeVersion | GetNetworkName
  | Peers | StopCPUProfiler => true
  | _ => false
  end.

(** The documented keys, bound to the arguments in order. *)
Definition documented_params (op : Operation) (args : list JSValue)
  : gmap string JSValue :=
  let arg i := nth i args JUndefined in
  match op with
  | Alias => {[ "endpoint" := arg 0; "alias" := arg 1 ]}
  | AliasChain => {[ "chain" := arg 0; "alias" := arg 1 ]}
  | GetBlockchainID => {[ "alias" := arg 0 ]}
  | LockProfile | MemoryProfile | StartCPUProfiler => {[ "fileName" := arg 0 ]}
  | _ => ∅
  end.

(** Four of the zero-input operations call the primitive with the method
    name alone. *)
Definition omits_params (op : Operation) : bool :=
  match op with
  | GetNodeVersion | GetNetworkName | Peers | StopCPUProfiler => true
  | _ => false
  end.

Definition argument_of (op : Operation) (args : list JSValue) : Argument :=
  if omits_params op then Omitted else Object (documented_params op args).

(** [data.result.<key>] of a well-formed envelope, [None] when the envelope
    has no such field. *)
Definition response_field (d : JSValue) (k : PropertyKey) : option JSValue :=
  match d with
  | JObj envelope =>
      match envelope !! "result" with
      | Some (JObj result) => result !! key_name k
      | _ => None
      end
  | _ => None
  end.

Definition is_nullish (v : JSValue) : bool :=
  match v with
  | JUndefined | JNull => true
  | _ => false
  end.

(** [data.result] read off a value that is neither [undefined] nor [null]. *)
Definition envelope_result (d : JSValue) : JSValue :=
  match d with
  | JObj envelope => default JUndefined (envelope !! "result")
  | _ => JUndefined
  end.

(** What the [then] callback of an operation makes of a settled call. *)
Definition extract (k : PropertyKey) (o : Settled RequestResponseData)
  : Settled JSValue :=
  match o with
  | Fulfilled response =>
      settle_completion
        (result ← get_prop (data response) k_result; get_prop result k)
  | Rejected e => Rejected e
  end.

(** The request an invocation makes, and the world once it is made. *)
Definition issue (op : Operation) (args : list JSValue) (w : World)
  : Request * World :=
  match argument_of op args with
  | Omitted =>
      let req := {| req_method := method_name op; req_params := None |} in
      (req, record req w)
  | Object fields =>
      let '(l, w') := alloc fields w in
      let req := {| req_method := method_name op; req_params := Some l |} in
      (req, record req w')
  end.

Definition is_rejected {A : Type} (r : Settled A) : Prop :=
  ∃ e, r = Rejected e.

Definition is_number (v : JSValue) : Prop := ∃ n, v = JNum n.

Definition empty_world : World := {| heap := []; sent := []; console := [] |}.

(** A mocked transport: answers every call with the same settled promise. *)
Definition mock (o : Settled RequestResponseData) : Transport := λ _ _, o.

Definition respond (d : JSValue) : Transport := mock (Fulfilled {| data := d |}).

(** The decoded responses the specification uses as examples. *)
Definition version_data : JSValue :=
  JObj {[ "result" := JObj {[ "version" := JStr "avalanche/1.0.0" ]} ]}.

Definition peers_data : JSValue :=
  JObj {[ "result" :=
    JObj {[ "peers" := JArr [JStr "1.2.3.4:9650"; JStr "5.6.7.8:9650"] ]} ]}.

(** A superclass that provides [callMethod] and nothing else. *)
Definition only_callMethod (name : string)
  : option (list JSValue → Async JSValue) :=
  if String.eqb name "callMethod"
  then Some (λ args,
         match args with
         | JStr method :: _ =>
             then_ (callMethod method None) (λ response, Return (data response))
         | _ => Settle (Rejected TypeError)
         end)
  else None.

(** Responses that answer successfully without the field asked for, or with
    a field of another type. *)
Definition empty_result_data : JSValue := JObj {[ "result" := JObj ∅ ]}.

Definition numeric_networkID_data : JSValue :=
  JObj {[ "result" := JObj {[ "networkID" := JNum 12345 ]} ]}.

Definition textual_networkID_data : JSValue :=
  JObj {[ "result" := JObj {[ "networkID" := JStr "12345" ]} ]}.

(** Number of parameters each method declares. *)
Definition arity (op : Operation) : nat :=
  match op with
  | Alias | AliasChain => 2
  | GetBlockchainID | LockProfile | MemoryProfile | StartCPUProfiler => 1
  | GetNodeID | GetNetworkID | GetNodeVersion | GetNetworkName
  | Peers | StopCPUProfiler => 0
  end.

(** The values the parameters of [op] hold when it is called with [args]. *)
Definition actuals (op : Operation) (args : list JSValue) : list JSValue :=
  (λ i, nth i args JUndefined) <$> seq 0 (arity op).

(** The request a computation makes first. *)
Definition request_of {A : Type} (p : Async A) (w : World) : option Request :=
  match start p w with
  | (Pending req _, _) => Some req
  | (Finished _, _) => None
  end.

(** ** Schedules *)

Definition initial (w : World) : Config := {| world := w; tasks := [] |}.

(** The invocations of a schedule, in the order they are made. *)
Definition invoked (evs : list Event) : list (Operation * list JSValue) :=
  omap (λ ev, match ev with
              | Invoke op args => Some (op, args)
              | Deliver _ _ => None
              end) evs.

(** Book-keeping of a schedule: per invocation, the operation, its
    arguments and the answer it got, which is the first one delivered while
    it was waiting. *)
Record Entry : Type := {
  ent_op : Operation;
  ent_args : list JSValue;
  ent_answer : option (Settled RequestResponseData)
}.

Definition invocation (e : Entry) : Operation * list JSValue :=
  (ent_op e, ent_args e).

Definition note (book : list Entry) (ev : Event) : list Entry :=
  match ev with
  | Invoke op args =>
      book ++ [{| ent_op := op; ent_args := args; ent_answer := None |}]
  | Deliver i o =>
      match book !! i with
      | Some {| ent_op := op; ent_args := args; ent_answer := None |} =>
          <[i := {| ent_op := op; ent_args := args; ent_answer := Some o |}]> book
      | _ => book
      end
  end.

Definition ledger (evs : list Event) : list Entry := fold_left note evs [].

(** The request of an invocation, read in world [w]. *)
Definition request_for (w : World) (inv : Operation * list JSValue)
    (req : Request) : Prop :=
  req_method req = method_name inv.1
  ∧ argument_sent w req = Some (argument_of inv.1 inv.2).

(** What an invocation yields when it runs alone and its call is answered
    with [o]. *)
Definition outcome_alone (op : Operation) (args : list JSValue)
    (o : Settled RequestResponseData) : Settled JSValue :=
  (run (mock o) (apply op args) empty_world).1.

(** A task stands as its entry says: waiting while unanswered, finished
    with the outcome of its own answer once answered. *)
Definition settled_as (e : Entry) (t : Task JSValue) : Prop :=
  match ent_answer e with
  | None => ∃ req k, t = Pending req k
  | Some o => t = Finished (outcome_alone (ent_op e) (ent_args e) o)
  end.

(** The same, with what the continuation of a waiting task does. *)
Definition entry_task (e : Entry) (t : Task JSValue) : Prop :=
  match ent_answer e with
  | None => ∃ req k, t = Pending req k
                     ∧ ∀ o, k o = Settle (extract (result_key (ent_op e)) o)
  | Some o => t = Finished (extract (result_key (ent_op e)) o)
  end.

(** What holds of every configuration a schedule reaches from world [w0]. *)
Definition coherent (w0 : World) (book : list Entry) (cfg : Config) : Prop :=
  ∃ reqs,
    sent (world cfg) = sent w0 ++ reqs
    ∧ heap w0 `prefix_of` heap (world cfg)
    ∧ console (world cfg) = console w0
    ∧ Forall2 (request_for (world cfg)) (invocation <$> book) reqs
    ∧ Forall (λ l, l < length (heap (world cfg))) (omap req_params reqs)
    ∧ NoDup (omap req_params reqs)
    ∧ Forall2 entry_task book (tasks cfg).

(** A superclass whose [getNodeIP] hands out the node identifier. *)
Definition getNodeIP_as_getNodeID (name : string)
  : option (list JSValue → Async JSValue) :=
  if String.eqb name "getNodeIP" then Some (λ _, InfoAPI.getNodeID) else None.

Definition nodeID_data : JSValue :=
  JObj {[ "result" := JObj {[ "nodeID" := JStr "NodeID-7Xhw2mDxuDS44j42TCB6U5579esbSt3Lg" ]} ]}.

(** * Properties *)

(** ** How a computation runs *)

Lemma run_start {A : Type} (T : Transport) (p : Async A) (w : World) :
  run T p w =
  match start p w with
  | (Finished r, w') => (r, w')
  | (Pending req k, w') => run T (k (T w' req)) w'
  end.
Proof.
  revert w. induction p as [r | fields k IH | method params k IH | v k IH];
    intros w; simpl; auto.
Qed.

(** Every operation allocates at most its parameter object, makes its one
    call, and leaves behind a continuation that only extracts. *)
Lemma start_apply (op : Operation) (args : list JSValue) (w : World) :
  ∃ k, start (apply op args) w = (Pending (issue op args w).1 k, (issue op args w).2)
       ∧ ∀ o, k o = Settle (extract (result_key op) o).
Proof.
  destruct op; (eexists; split; [reflexivity | by intros [response | e]]).
Qed.

Lemma response_apply (T : Transport) (op : Operation) (args : list JSValue)
    (w : World) :
  response T (apply op args) w = Some (T (issue op args w).2 (issue op args w).1).
Proof.
  unfold response. destruct (start_apply op args w) as (k & -> & _). done.
Qed.

Lemma run_apply (T : Transport) (op : Operation) (args : list JSValue)
    (w : World) :
  run T (apply op args) w =
  (extract (result_key op) (T (issue op args w).2 (issue op args w).1),
   (issue op args w).2).
Proof.
  rewrite run_start. destruct (start_apply op args w) as (k & -> & Hk).
  by rewrite Hk.
Qed.

Lemma sent_issue (op : Operation) (args : list JSValue) (w : World) :
  sent (issue op args w).2 = sent w ++ [(issue op args w).1].
Proof. unfold issue. by destruct (argument_of op args). Qed.

Lemma method_issue (op : Operation) (args : list JSValue) (w : World) :
  req_method (issue op args w).1 = method_name op.
Proof. unfold issue. by destruct (argument_of op args). Qed.

Lemma argument_issue (op : Operation) (args : list JSValue) (w : World) :
  argument_sent (issue op args w).2 (issue op args w).1
  = Some (argument_of op args).
Proof.
  unfold issue, argument_sent. destruct (argument_of op args) as [| fields]; simpl.
  - done.
  - by rewrite list_lookup_middle.
Qed.

(** The binding only ever adds objects to the heap. *)
Lemma heap_issue (op : Operation) (args : list JSValue) (w : World) :
  heap w `prefix_of` heap (issue op args w).2.
Proof.
  unfold issue. destruct (argument_of op args) as [| fields]; simpl.
  - done.
  - by apply prefix_app_r.
Qed.

Lemma params_issue (op : Operation) (args : list JSValue) (w : World) (l : loc) :
  req_params (issue op args w).1 = Some l →
  l = length (heap w) ∧ length (heap (issue op args w).2) = S l.
Proof.
  unfold issue. destruct (argument_of op args) as [| fields]; simpl.
  - done.
  - intros [= <-]. rewrite length_app. simpl. lia.
Qed.

Lemma argument_sent_mono (w w' : World) (req : Request) (a : Argument) :
  heap w `prefix_of` heap w' →
  argument_sent w req = Some a → argument_sent w' req = Some a.
Proof.
  unfold argument_sent. intros Hprefix.
  destruct (req_params req) as [l |]; [| done].
  destruct (heap w !! l) as [fields |] eqn:Hl; [| done].
  intros <-. by rewrite (prefix_lookup_Some _ _ _ _ Hl Hprefix).
Qed.

Lemma extract_field (k : PropertyKey) (resp : RequestResponseData) (v : JSValue) :
  response_field (data resp) k = Some v →
  extract k (Fulfilled resp) = Fulfilled v.
Proof.
  unfold response_field, extract. destruct (data resp) as [| | | | | |envelope]; try done.
  simpl. destruct (envelope !! "result") as [[| | | | | |result]|]; try done.
  simpl. by intros ->.
Qed.

Lemma extract_missing (k : PropertyKey) (resp : RequestResponseData) :
  response_field (data resp) k = None →
  extract k (Fulfilled resp) =
  if is_nullish (data resp) || is_nullish (envelope_result (data resp))
  then Rejected TypeError else Fulfilled JUndefined.
Proof.
  unfold response_field, extract, envelope_result.
  destruct (data resp) as [| | | | | |envelope]; try done.
  simpl. destruct (envelope !! "result") as [[| | | | | |result]|]; try done.
  simpl. by intros ->.
Qed.

(** Goals of the form [response T (apply op args) w = Some o → ...]: name
    the call and the world it is made in, and replace the answer by [o]. *)
Ltac answer_call :=
  let Hanswer := fresh "Hanswer" in
  rewrite response_apply, run_apply; intros Hanswer;
  apply (inj Some) in Hanswer; rewrite Hanswer; clear Hanswer; cbn [fst snd].

(** ** Results *)

(** C1: for every operation, when the transport answers the operation's call
    with a response whose decoded data holds the operation's result field,
    the returned promise is fulfilled with exactly that field's value. *)
Theorem result_field_returned (T : Transport) (op : Operation)
    (args : list JSValue) (w : World) (resp : RequestResponseData)
    (v : JSValue) :
  response T (apply op args) w = Some (Fulfilled resp) →
  response_field (data resp) (result_key op) = Some v →
  (run T (apply op args) w).1 = Fulfilled v.
Proof. answer_call. apply extract_field. Qed.

(** The node version example of the specification: against
    [{"result": {"version": "avalanche/1.0.0"}}] the operation yields
    ["avalanche/1.0.0"]. *)
Lemma result_field_returned_version :
  response (respond version_data) (apply GetNodeVersion []) empty_world
    = Some (Fulfilled {| data := version_data |})
  ∧ response_field version_data (result_key GetNodeVersion)
    = Some (JStr "avalanche/1.0.0")
  ∧ (run (respond version_data) InfoAPI.getNodeVersion empty_world).1
    = Fulfilled (JStr "avalanche/1.0.0").
Proof.
  split; [reflexivity | split; [reflexivity |]].
  apply (result_field_returned _ GetNodeVersion [] empty_world
           {| data := version_data |}); reflexivity.
Defined.

(** C4: for every operation, when the call primitive rejects, the returned
    promise is rejected with that very reason, and the world is the one the
    single call left: nothing is retried. *)
Theorem rejection_propagated (T : Transport) (op : Operation)
    (args : list JSValue) (w : World) (e : Reason) :
  response T (apply op args) w = Some (Rejected e) →
  (run T (apply op args) w).1 = Rejected e
  ∧ ∃ req, sent (run T (apply op args) w).2 = sent w ++ [req].
Proof.
  answer_call. split; [done |]. eexists. apply sent_issue.
Qed.

Lemma rejection_propagated_refused :
  response (mock (Rejected (External (JStr "ECONNREFUSED")))) (apply Peers [])
    empty_world = Some (Rejected (External (JStr "ECONNREFUSED")))
  ∧ (run (mock (Rejected (External (JStr "ECONNREFUSED")))) (apply Peers [])
       empty_world).1 = Rejected (External (JStr "ECONNREFUSED"))
  ∧ ∃ req, sent (run (mock (Rejected (External (JStr "ECONNREFUSED"))))
                   (apply Peers []) empty_world).2
           = sent empty_world ++ [req].
Proof.
  split; [reflexivity |].
  apply (rejection_propagated _ Peers [] empty_world). reflexivity.
Defined.

(** C7: every invocation of every operation calls the primitive exactly
    once, whether the call succeeds or fails.  Run to the end against any
    transport, the invocation extends the log of calls by one request; taken
    apart, the invocation makes that one call before it waits, and whatever
    the answer, the rest of it finishes without a further call or any other
    change to the world. *)
Theorem one_call_per_invocation (T : Transport) (op : Operation)
    (args : list JSValue) (w : World) :
  (∃ req, sent (run T (apply op args) w).2 = sent w ++ [req]
          ∧ req_method req = method_name op)
  ∧ ∃ req k w1,
      start (apply op args) w = (Pending req k, w1)
      ∧ sent w1 = sent w ++ [req]
      ∧ ∀ o w2, ∃ r, start (k o) w2 = (Finished r, w2).
Proof.
  split.
  - rewrite run_apply. exists (issue op args w).1.
    split; [apply sent_issue | apply method_issue].
  - destruct (start_apply op args w) as (k & Hstart & Hk).
    exists (issue op args w).1, k, (issue op args w).2.
    split; [exact Hstart | split; [apply sent_issue |]].
    intros o w2. rewrite Hk. by eexists.
Qed.

(** C2, as the code has it: every invocation submits the method
    ["info.<operation>"] and, for an operation with inputs, a parameter
    object holding exactly the documented keys bound to the arguments;
    [getNodeID] and [getNetworkID] submit an object without keys, the other
    four zero-input operations submit the method name and no parameter
    object at all. *)
Theorem parameters_submitted (T : Transport) (op : Operation)
    (args : list JSValue) (w : World) :
  let w' := (run T (apply op args) w).2 in
  ∃ req, sent w' = sent w ++ [req]
    ∧ req_method req = method_name op
    ∧ argument_sent w' req
      = Some (if omits_params op then Omitted
              else Object (documented_params op args)).
Proof.
  simpl. rewrite run_apply. exists (issue op args w).1. simpl.
  split; [apply sent_issue | split; [apply method_issue |]].
  apply argument_issue.
Qed.

(** The alias example of the specification: [alias("bc/X", "xchain")]
    submits ["info.alias"] with [{"endpoint": "bc/X", "alias": "xchain"}]. *)
Lemma parameters_submitted_alias :
  ∃ req,
    sent (run (respond version_data)
            (InfoAPI.alias (JStr "bc/X") (JStr "xchain")) empty_world).2 = [req]
    ∧ req_method req = "info.alias"
    ∧ argument_sent
        (run (respond version_data)
           (InfoAPI.alias (JStr "bc/X") (JStr "xchain")) empty_world).2 req
      = Some (Object {[ "endpoint" := JStr "bc/X"; "alias" := JStr "xchain" ]}).
Proof.
  destruct (parameters_submitted (respond version_data) Alias
              [JStr "bc/X"; JStr "xchain"] empty_world)
    as (req & Hsent & Hmethod & Hargument).
  exists req. split; [exact Hsent | split; [exact Hmethod | exact Hargument]].
Defined.

(** C2 fails as stated for a zero-input operation: [getNodeVersion] hands
    the primitive no parameter mapping, not a mapping without keys. *)
Lemma parameters_submitted_none :
  zero_input GetNodeVersion = true
  ∧ sent (run (respond version_data) (apply GetNodeVersion []) empty_world).2
    = [ {| req_method := "info.getNodeVersion"; req_params := None |} ]
  ∧ ¬ ∃ req fields,
        sent (run (respond version_data) (apply GetNodeVersion []) empty_world).2
          = [req]
        ∧ argument_sent
            (run (respond version_data) (apply GetNodeVersion []) empty_world).2
            req = Some (Object fields).
Proof.
  split; [reflexivity | split; [reflexivity |]].
  intros (req & fields & Hsent & Harg). simpl in Hsent.
  injection Hsent as <-. discriminate Harg.
Qed.

(** C3, as the code has it: when the call succeeds and the decoded data has
    no [result.<field>], the operation raises no error of its own; the
    promise is fulfilled with [undefined] when [data] and [data.result] are
    values other than [undefined] and [null], and is rejected with the
    engine's [TypeError] when one of them is. *)
Theorem missing_field_outcome (T : Transport) (op : Operation)
    (args : list JSValue) (w : World) (resp : RequestResponseData) :
  response T (apply op args) w = Some (Fulfilled resp) →
  response_field (data resp) (result_key op) = None →
  (run T (apply op args) w).1 =
  if is_nullish (data resp) || is_nullish (envelope_result (data resp))
  then Rejected TypeError else Fulfilled JUndefined.
Proof. answer_call. apply extract_missing. Qed.

Lemma missing_field_outcome_empty_result :
  response (respond empty_result_data) (apply GetNodeID []) empty_world
    = Some (Fulfilled {| data := empty_result_data |})
  ∧ response_field empty_result_data (result_key GetNodeID) = None
  ∧ (run (respond empty_result_data) (apply GetNodeID []) empty_world).1
    = Fulfilled JUndefined.
Proof.
  split; [reflexivity | split; [reflexivity |]].
  apply (missing_field_outcome _ GetNodeID [] empty_world
           {| data := empty_result_data |}); reflexivity.
Defined.

(** C3 fails as stated: against [{"result": {}}] the node identifier
    operation is fulfilled with [undefined]; no error reaches the caller. *)
Lemma missing_field_not_reported :
  response (respond empty_result_data) InfoAPI.getNodeID empty_world
    = Some (Fulfilled {| data := empty_result_data |})
  ∧ response_field empty_result_data k_nodeID = None
  ∧ (run (respond empty_result_data) InfoAPI.getNodeID empty_world).1
    = Fulfilled JUndefined
  ∧ ¬ is_rejected (run (respond empty_result_data) InfoAPI.getNodeID empty_world).1.
Proof.
  repeat split; try reflexivity. intros [e He]. discriminate He.
Qed.

(** C5: the peers operation returns the [result.peers] field; when that
    field is a sequence of address strings, the promise is fulfilled with
    exactly that sequence. *)
Theorem peers_returned (T : Transport) (w : World)
    (resp : RequestResponseData) (addresses : list string) :
  response T InfoAPI.peers w = Some (Fulfilled resp) →
  response_field (data resp) k_peers = Some (JArr (JStr <$> addresses)) →
  (run T InfoAPI.peers w).1 = Fulfilled (JArr (JStr <$> addresses)).
Proof.
  change InfoAPI.peers with (apply Peers []). answer_call.
  apply extract_field.
Qed.

(** The peers example of the specification. *)
Lemma peers_returned_example :
  response (respond peers_data) InfoAPI.peers empty_world
    = Some (Fulfilled {| data := peers_data |})
  ∧ response_field peers_data k_peers
    = Some (JArr (JStr <$> ["1.2.3.4:9650"; "5.6.7.8:9650"]))
  ∧ (run (respond peers_data) InfoAPI.peers empty_world).1
    = Fulfilled (JArr [JStr "1.2.3.4:9650"; JStr "5.6.7.8:9650"]).
Proof.
  split; [reflexivity | split; [reflexivity |]].
  apply (peers_returned _ empty_world {| data := peers_data |}
           ["1.2.3.4:9650"; "5.6.7.8:9650"]); reflexivity.
Defined.

(** C6, as the code has it: the network identifier operation ignores its
    arguments, submits an object without keys, and returns the
    [result.networkID] field as it is; the promise is fulfilled with a
    number when that field of the response is a number. *)
Theorem networkID_returned (T : Transport) (args : list JSValue) (w : World)
    (resp : RequestResponseData) (n : Z) :
  response T (apply GetNetworkID args) w = Some (Fulfilled resp) →
  response_field (data resp) k_networkID = Some (JNum n) →
  let w' := (run T (apply GetNetworkID args) w).2 in
  (run T (apply GetNetworkID args) w).1 = Fulfilled (JNum n)
  ∧ ∃ req, sent w' = sent w ++ [req] ∧ argument_sent w' req = Some (Object ∅).
Proof.
  answer_call. intros Hfield. split.
  - by apply extract_field.
  - exists (issue GetNetworkID args w).1.
    split; [apply sent_issue | apply argument_issue].
Qed.

Lemma networkID_returned_12345 :
  response (respond numeric_networkID_data) (apply GetNetworkID []) empty_world
    = Some (Fulfilled {| data := numeric_networkID_data |})
  ∧ response_field numeric_networkID_data k_networkID = Some (JNum 12345)
  ∧ (run (respond numeric_networkID_data) (apply GetNetworkID []) empty_world).1
    = Fulfilled (JNum 12345).
Proof.
  split; [reflexivity | split; [reflexivity |]].
  apply (networkID_returned _ [] empty_world
           {| data := numeric_networkID_data |} 12345); reflexivity.
Defined.

(** C6 fails as stated: a call that succeeds with
    [{"result": {"networkID": "12345"}}] is fulfilled with a string. *)
Lemma networkID_not_a_number :
  (run (respond textual_networkID_data) InfoAPI.getNetworkID empty_world).1
    = Fulfilled (JStr "12345")
  ∧ ¬ is_number (JStr "12345").
Proof.
  split; [reflexivity |]. intros [n Hn]. discriminate Hn.
Qed.

(** C8: two invocations in flight at once do not share a parameter object.
    Whatever the two operations, their arguments, the two answers and the
    order in which the answers arrive, each call's submitted parameters are
    the ones built from its own arguments, two parameter objects are
    distinct and newly allocated, objects that existed before are left as
    they were, and each result is the one the invocation yields when it runs
    alone against its own answer. *)
Theorem concurrent_calls_independent (w : World)
    (op1 : Operation) (args1 : list JSValue)
    (op2 : Operation) (args2 : list JSValue)
    (o1 o2 : Settled RequestResponseData) (second_first : bool) :
  let cfg := exec {| world := w; tasks := [] |}
               (concurrently op1 args1 op2 args2 o1 o2 second_first) in
  ∃ req1 req2,
    sent (world cfg) = sent w ++ [req1; req2]
    ∧ argument_sent (world cfg) req1 = Some (argument_of op1 args1)
    ∧ argument_sent (world cfg) req2 = Some (argument_of op2 args2)
    ∧ (∀ l1 l2, req_params req1 = Some l1 → req_params req2 = Some l2 → l1 ≠ l2)
    ∧ (∀ l, req_params req1 = Some l ∨ req_params req2 = Some l →
            heap w !! l = None)
    ∧ (∀ l, l < length (heap w) → heap (world cfg) !! l = heap w !! l)
    ∧ tasks cfg =
      [Finished (run (mock o1) (apply op1 args1) empty_world).1;
       Finished (run (mock o2) (apply op2 args2) empty_world).1].
Proof.
  intros cfg.
  destruct (start_apply op1 args1 w) as (k1 & Hs1 & Hk1).
  destruct (start_apply op2 args2 (issue op1 args1 w).2) as (k2 & Hs2 & Hk2).
  assert (Hcfg : cfg =
    {| world := (issue op2 args2 (issue op1 args1 w).2).2;
       tasks := [Finished (extract (result_key op1) o1);
                 Finished (extract (result_key op2) o2)] |}).
  { subst cfg. unfold exec, concurrently.
    destruct second_first; simpl; rewrite Hs1; simpl; rewrite Hs2; simpl;
      rewrite ?Hk1, ?Hk2; simpl; rewrite ?Hk1, ?Hk2; reflexivity. }
  rewrite Hcfg. simpl. rewrite !run_apply. simpl.
  set (w1 := (issue op1 args1 w).2).
  assert (H1 : heap w `prefix_of` heap w1) by apply heap_issue.
  assert (H2 : heap w1 `prefix_of` heap (issue op2 args2 w1).2)
    by apply heap_issue.
  exists (issue op1 args1 w).1, (issue op2 args2 w1).1.
  split; [| split; [| split; [| split; [| split; [| split]]]]].
  - rewrite sent_issue. subst w1. rewrite sent_issue.
    by rewrite <- (assoc_L (++)).
  - apply argument_sent_mono with w1; [done | apply argument_issue].
  - apply argument_issue.
  - intros l1 l2 [-> Hlen]%params_issue [-> _]%params_issue.
    fold w1 in Hlen. lia.
  - intros l [[-> _]%params_issue | [-> _]%params_issue];
      apply lookup_ge_None; [lia |]. by apply prefix_length.
  - intros l Hl. symmetry.
    apply prefix_lookup_lt; [done | by etrans].
  - done.
Qed.

(** Calls of [alias] and [aliasChain] in flight together, the second answer
    arriving first. *)
Lemma concurrent_calls_independent_aliases :
  let cfg :=
    exec {| world := empty_world; tasks := [] |}
      (concurrently Alias [JStr "bc/X"; JStr "xchain"]
         AliasChain [JStr "2oYMBNV4eNHyqk2fjjV5nVQLDbtmNJzq5s3qs3Lo6ftnC6FByM"; JStr "X"]
         (Fulfilled {| data := JObj {[ "result" := JObj {[ "success" := JBool true ]} ]} |})
         (Rejected (External (JStr "ECONNREFUSED")))
         true) in
  heap (world cfg) =
    [ {[ "endpoint" := JStr "bc/X"; "alias" := JStr "xchain" ]};
      {[ "chain" := JStr "2oYMBNV4eNHyqk2fjjV5nVQLDbtmNJzq5s3qs3Lo6ftnC6FByM";
         "alias" := JStr "X" ]} ]
  ∧ ∃ req1 req2,
      sent (world cfg) = sent empty_world ++ [req1; req2]
      ∧ (∀ l1 l2, req_params req1 = Some l1 → req_params req2 = Some l2 → l1 ≠ l2)
      ∧ tasks cfg = [Finished (Fulfilled (JBool true));
                     Finished (Rejected (External (JStr "ECONNREFUSED")))].
Proof.
  intros cfg. split; [reflexivity |].
  destruct (concurrent_calls_independent empty_world
              Alias [JStr "bc/X"; JStr "xchain"]
              AliasChain [JStr "2oYMBNV4eNHyqk2fjjV5nVQLDbtmNJzq5s3qs3Lo6ftnC6FByM"; JStr "X"]
              (Fulfilled {| data := JObj {[ "result" := JObj {[ "success" := JBool true ]} ]} |})
              (Rejected (External (JStr "ECONNREFUSED"))) true)
    as (req1 & req2 & Hsent & _ & _ & Hne & _ & _ & Htasks).
  exists req1, req2. split; [exact Hsent | split; [exact Hne | exact Htasks]].
Defined.

(** C9: constructing an [InfoAPI] without a base URL uses the default base
    path ["/ext/info"]: whatever the superclass constructor does, it is
    called with the given core and ["/ext/info"], a base URL that is given
    reaches it as it is, and so the construction without a base URL produces
    the same instance state as the one with ["/ext/info"]. *)
Theorem constructor_default_baseurl {AvalancheCore JRPCAPI : Type}
    (super : AvalancheCore → string → JRPCAPI) (core : AvalancheCore) :
  InfoAPI.constructor super core None = super core "/ext/info"
  ∧ (∀ baseurl, InfoAPI.constructor super core (Some baseurl)
                = super core baseurl)
  ∧ InfoAPI.constructor super core None
    = InfoAPI.constructor super core (Some "/ext/info").
Proof. split; [reflexivity | split; [intros baseurl |]; reflexivity]. Qed.

(** With a superclass that keeps what it is given, the instance built
    without a base URL holds ["/ext/info"]. *)
Lemma constructor_default_baseurl_kept :
  InfoAPI.constructor (λ (core : nat) (baseurl : string), (core, baseurl)) 7 None
  = (7, "/ext/info").
Proof.
  exact (proj1 (constructor_default_baseurl
                  (λ (core : nat) (baseurl : string), (core, baseurl)) 7)).
Defined.

(** C10: the class declares exactly twelve operations, under twelve distinct
    names, and none of them is [getNodeIP]; when the superclass provides no
    such member either, the example's [info.getNodeIP()] calls [undefined]:
    [main] is rejected with a [TypeError], sends no request and prints
    nothing. *)
Theorem getNodeIP_undefined
    (inherited : string → option (list JSValue → Async JSValue))
    (T : Transport) (w : World) :
  inherited "getNodeIP" = None →
  op_name <$> operations =
    ["getNodeID"; "getNetworkID"; "alias"; "aliasChain"; "getBlockchainID";
     "getNodeVersion"; "getNetworkName"; "lockProfile"; "memoryProfile";
     "peers"; "startCPUProfiler"; "stopCPUProfiler"]
  ∧ NoDup (op_name <$> operations)
  ∧ (∀ op, op ∈ operations ∧ own_member (op_name op) = Some op)
  ∧ (∀ name, is_Some (own_member name) ↔ name ∈ op_name <$> operations)
  ∧ own_member "getNodeIP" = None
  ∧ run T (Example.main inherited) w = (Rejected TypeError, w).
Proof.
  intros Hinherited.
  split; [reflexivity |].
  split; [compute_done |].
  split; [intros op; split; [destruct op; set_solver | by destruct op] |].
  split; [| split; [reflexivity |]].
  - intros name. split.
    + intros [op Hop]. unfold own_member in Hop.
      apply find_some in Hop as [Hin Heq]. apply String.eqb_eq in Heq as <-.
      apply list_elem_of_fmap. exists op. split; [done |].
      by apply list_elem_of_In.
    + intros (op & -> & _)%list_elem_of_fmap. exists op. by destruct op.
  - unfold Example.main, Example.call_member. simpl. by rewrite Hinherited.
Qed.

Lemma getNodeIP_undefined_witness :
  only_callMethod "getNodeIP" = None
  ∧ own_member "getNodeIP" = None
  ∧ run (respond version_data) (Example.main only_callMethod) empty_world
    = (Rejected TypeError, empty_world).
Proof.
  split; [reflexivity |].
  split;
    apply (getNodeIP_undefined only_callMethod (respond version_data)
             empty_world);
    reflexivity.
Defined.

(** ** Further properties of the binding *)

Lemma console_issue (op : Operation) (args : list JSValue) (w : World) :
  console (issue op args w).2 = console w.
Proof. unfold issue. by destruct (argument_of op args). Qed.

Lemma length_heap_issue (op : Operation) (args : list JSValue) (w : World) :
  length (heap (issue op args w).2)
  = length (heap w) + (if omits_params op then 0 else 1).
Proof.
  unfold issue, argument_of. destruct (omits_params op); simpl.
  - lia.
  - by rewrite length_app.
Qed.

(** [await p; f] runs [f] in the world [p] left, and not at all when [p] is
    rejected. *)
Lemma run_bind {A B : Type} (T : Transport) (p : Async A) (f : A → Async B)
    (w : World) :
  run T (bind p f) w =
  match run T p w with
  | (Fulfilled a, w') => run T (f a) w'
  | (Rejected e, w') => (Rejected e, w')
  end.
Proof.
  revert w. induction p as [[a | e] | fields k IH | method params k IH | v k IH];
    intros w; simpl; auto.
Qed.

(** X1: what an invocation leaves behind does not depend on the answer.
    Against any two transports the world after the invocation is the same:
    the console is untouched, the heap keeps every object it had and gains
    one object exactly when the operation passes a parameter object. *)
Theorem world_independent_of_answer (T1 T2 : Transport) (op : Operation)
    (args : list JSValue) (w : World) :
  let w' := (run T1 (apply op args) w).2 in
  (run T2 (apply op args) w).2 = w'
  ∧ console w' = console w
  ∧ heap w `prefix_of` heap w'
  ∧ length (heap w') = length (heap w) + (if omits_params op then 0 else 1).
Proof.
  simpl. rewrite !run_apply. simpl.
  split; [done | split; [apply console_issue |]].
  split; [apply heap_issue | apply length_heap_issue].
Qed.

(** X2: members of the envelope other than [result] are not looked at: with
    or without such a member, an [error] member for one, the invocation
    ends the same way. *)
Theorem other_envelope_members_ignored (op : Operation) (args : list JSValue)
    (w : World) (envelope : gmap string JSValue) (key : string) (x : JSValue) :
  key ≠ "result" →
  run (respond (JObj (<[key := x]> envelope))) (apply op args) w
  = run (respond (JObj envelope)) (apply op args) w.
Proof.
  intros Hkey. rewrite !run_apply. unfold respond, mock, extract. simpl.
  by rewrite lookup_insert_ne.
Qed.

Lemma other_envelope_members_ignored_error :
  "error" ≠ "result"
  ∧ run (respond (JObj (<["error" := JStr "timeout"]>
                          {[ "result" := JObj {[ "version" := JStr "avalanche/1.0.0" ]} ]})))
      (apply GetNodeVersion []) empty_world
    = run (respond version_data) (apply GetNodeVersion []) empty_world.
Proof.
  split; [done |].
  apply (other_envelope_members_ignored GetNodeVersion [] empty_world
           {[ "result" := JObj {[ "version" := JStr "avalanche/1.0.0" ]} ]}
           "error" (JStr "timeout")).
  done.
Defined.

(** X3: fields of [result] other than the operation's own are not looked at
    either. *)
Theorem other_result_fields_ignored (op : Operation) (args : list JSValue)
    (w : World) (envelope result : gmap string JSValue) (key : string)
    (x : JSValue) :
  envelope !! "result" = Some (JObj result) →
  key ≠ key_name (result_key op) →
  run (respond (JObj (<["result" := JObj (<[key := x]> result)]> envelope)))
    (apply op args) w
  = run (respond (JObj envelope)) (apply op args) w.
Proof.
  intros Hresult Hkey. rewrite !run_apply. unfold respond, mock, extract. simpl.
  rewrite lookup_insert_eq, Hresult. simpl. by rewrite lookup_insert_ne.
Qed.

Lemma other_result_fields_ignored_peers :
  ({[ "result" := JObj {[ "nodeID" := JStr "NodeID-7Xhw2mDxuDS44j42TCB6U5579esbSt3Lg" ]} ]}
     : gmap string JSValue) !! "result"
    = Some (JObj {[ "nodeID" := JStr "NodeID-7Xhw2mDxuDS44j42TCB6U5579esbSt3Lg" ]})
  ∧ "peers" ≠ key_name (result_key GetNodeID)
  ∧ run (respond (JObj (<["result" :=
           JObj (<["peers" := JArr []]>
                   {[ "nodeID" := JStr "NodeID-7Xhw2mDxuDS44j42TCB6U5579esbSt3Lg" ]})]>
           {[ "result" := JObj {[ "nodeID" := JStr "NodeID-7Xhw2mDxuDS44j42TCB6U5579esbSt3Lg" ]} ]})))
      (apply GetNodeID []) empty_world
    = run (respond nodeID_data) (apply GetNodeID []) empty_world.
Proof.
  split; [reflexivity | split; [done |]].
  apply (other_result_fields_ignored GetNodeID [] empty_world
           {[ "result" := JObj {[ "nodeID" := JStr "NodeID-7Xhw2mDxuDS44j42TCB6U5579esbSt3Lg" ]} ]}
           {[ "nodeID" := JStr "NodeID-7Xhw2mDxuDS44j42TCB6U5579esbSt3Lg" ]}
           "peers" (JArr [])).
  - reflexivity.
  - done.
Defined.

(** X4: nothing is remembered between invocations.  Invoking the same
    operation with the same arguments a second time sends a second request
    with the same method and the same parameters, built in an object of its
    own. *)
Theorem second_invocation_sends_again (T : Transport) (op : Operation)
    (args : list JSValue) (w : World) :
  let w1 := (run T (apply op args) w).2 in
  let w2 := (run T (apply op args) w1).2 in
  ∃ req1 req2,
    sent w2 = sent w ++ [req1; req2]
    ∧ req_method req1 = method_name op ∧ req_method req2 = method_name op
    ∧ argument_sent w2 req1 = Some (argument_of op args)
    ∧ argument_sent w2 req2 = Some (argument_of op args)
    ∧ ∀ l1 l2, req_params req1 = Some l1 → req_params req2 = Some l2 → l1 ≠ l2.
Proof.
  simpl. rewrite !run_apply. simpl.
  set (w1 := (issue op args w).2).
  exists (issue op args w).1, (issue op args w1).1.
  split; [| split; [| split; [| split; [| split]]]].
  - rewrite sent_issue. subst w1. rewrite sent_issue.
    by rewrite <- (assoc_L (++)).
  - apply method_issue.
  - apply method_issue.
  - apply argument_sent_mono with w1; [apply heap_issue | apply argument_issue].
  - apply argument_issue.
  - intros l1 l2 [-> Hlen]%params_issue [-> _]%params_issue.
    fold w1 in Hlen. lia.
Qed.

(** X5: the method name tells the operation: two invocations whose
    requests carry the same method name are invocations of the same
    operation. *)
Theorem method_identifies_operation (op1 op2 : Operation)
    (args1 args2 : list JSValue) (w1 w2 : World) (req1 req2 : Request) :
  request_of (apply op1 args1) w1 = Some req1 →
  request_of (apply op2 args2) w2 = Some req2 →
  req_method req1 = req_method req2 →
  op1 = op2.
Proof.
  unfold request_of.
  destruct (start_apply op1 args1 w1) as (k1 & -> & _).
  destruct (start_apply op2 args2 w2) as (k2 & -> & _).
  intros [= <-] [= <-]. rewrite !method_issue.
  by destruct op1, op2.
Qed.

Lemma method_identifies_operation_alias :
  request_of (apply Alias [JStr "bc/X"; JStr "xchain"]) empty_world
    = Some {| req_method := "info.alias"; req_params := Some 0 |}
  ∧ request_of (apply Alias [JStr "bc/P"; JStr "pchain"])
      (run (respond version_data) InfoAPI.getNodeID empty_world).2
    = Some {| req_method := "info.alias"; req_params := Some 1 |}
  ∧ Alias = Alias.
Proof.
  split; [reflexivity | split; [reflexivity |]].
  apply (method_identifies_operation Alias Alias
           [JStr "bc/X"; JStr "xchain"] [JStr "bc/P"; JStr "pchain"]
           empty_world (run (respond version_data) InfoAPI.getNodeID empty_world).2
           {| req_method := "info.alias"; req_params := Some 0 |}
           {| req_method := "info.alias"; req_params := Some 1 |});
    reflexivity.
Defined.

(** X6: when the instance does have a [getNodeIP] member, the example's
    [main] awaits it and prints what it resolves to, once; when the member's
    promise is rejected, [main] is rejected with the same reason and prints
    nothing. *)
Theorem main_prints_resolved_value
    (inherited : string → option (list JSValue → Async JSValue))
    (member : list JSValue → Async JSValue) (T : Transport) (w : World) :
  inherited "getNodeIP" = Some member →
  run T (Example.main inherited) w =
  match run T (member []) w with
  | (Fulfilled nodeIP, w') => (Fulfilled tt, print nodeIP w')
  | (Rejected e, w') => (Rejected e, w')
  end.
Proof.
  intros Hmember. unfold Example.main.
  change (mbind ?f ?p) with (bind p f). rewrite run_bind.
  unfold Example.call_member. simpl. rewrite Hmember.
  by destruct (run T (member []) w) as [[nodeIP | e] w'].
Qed.

Lemma main_prints_resolved_value_nodeID :
  getNodeIP_as_getNodeID "getNodeIP" = Some (λ _, InfoAPI.getNodeID)
  ∧ console (run (respond nodeID_data) (Example.main getNodeIP_as_getNodeID)
               empty_world).2
    = [JStr "NodeID-7Xhw2mDxuDS44j42TCB6U5579esbSt3Lg"].
Proof.
  split; [reflexivity |].
  rewrite (main_prints_resolved_value getNodeIP_as_getNodeID
             (λ _, InfoAPI.getNodeID) (respond nodeID_data) empty_world);
    reflexivity.
Defined.

Lemma Object_inj (fields1 fields2 : gmap string JSValue) :
  Object fields1 = Object fields2 → fields1 = fields2.
Proof. by intros [= ->]. Qed.

(** X10: the parameter object keeps every argument apart.  An invocation
    depends on its arguments through the values of its declared parameters
    only, and two invocations of one operation that submit the same
    parameters were given the same values for them: no argument is dropped
    or overwritten by another. *)
Theorem parameters_determine_arguments (T1 T2 : Transport) (op : Operation)
    (args1 args2 : list JSValue) (w1 w2 : World) (req1 req2 : Request) :
  request_of (apply op args1) w1 = Some req1 →
  request_of (apply op args2) w2 = Some req2 →
  argument_sent (run T1 (apply op args1) w1).2 req1
  = argument_sent (run T2 (apply op args2) w2).2 req2 →
  actuals op args1 = actuals op args2
  ∧ apply op args1 = apply op (actuals op args1).
Proof.
  unfold request_of. rewrite !run_apply.
  destruct (start_apply op args1 w1) as (k1 & -> & _).
  destruct (start_apply op args2 w2) as (k2 & -> & _).
  intros [= <-] [= <-]. simpl. rewrite !argument_issue.
  intros [= Hsame]. split; [| by destruct op].
  unfold argument_of, documented_params in Hsame.
  destruct op; cbn [omits_params] in Hsame; try done;
    apply Object_inj in Hsame; unfold actuals; simpl.
  - pose proof (f_equal (.!! "endpoint") Hsame) as H0.
    pose proof (f_equal (.!! "alias") Hsame) as H1.
    simplify_map_eq. congruence.
  - pose proof (f_equal (.!! "chain") Hsame) as H0.
    pose proof (f_equal (.!! "alias") Hsame) as H1.
    simplify_map_eq. congruence.
  - pose proof (f_equal (.!! "alias") Hsame) as H0.
    simplify_map_eq. congruence.
  - pose proof (f_equal (.!! "fileName") Hsame) as H0.
    simplify_map_eq. congruence.
  - pose proof (f_equal (.!! "fileName") Hsame) as H0.
    simplify_map_eq. congruence.
  - pose proof (f_equal (.!! "fileName") Hsame) as H0.
    simplify_map_eq. congruence.
Qed.

Lemma parameters_determine_arguments_surplus :
  request_of (apply Alias [JStr "bc/X"; JStr "xchain"; JNum 7]) empty_world
    = Some {| req_method := "info.alias"; req_params := Some 0 |}
  ∧ request_of (apply Alias [JStr "bc/X"; JStr "xchain"]) empty_world
    = Some {| req_method := "info.alias"; req_params := Some 0 |}
  ∧ actuals Alias [JStr "bc/X"; JStr "xchain"; JNum 7]
    = [JStr "bc/X"; JStr "xchain"].
Proof.
  split; [reflexivity | split; [reflexivity |]].
  apply (parameters_determine_arguments
           (respond version_data) (respond version_data) Alias
           [JStr "bc/X"; JStr "xchain"; JNum 7] [JStr "bc/X"; JStr "xchain"]
           empty_world empty_world
           {| req_method := "info.alias"; req_params := Some 0 |}
           {| req_method := "info.alias"; req_params := Some 0 |});
    reflexivity.
Defined.

(** ** Schedules of any length *)

Lemma exec_snoc (cfg : Config) (evs : list Event) (ev : Event) :
  exec cfg (evs ++ [ev]) = step (exec cfg evs) ev.
Proof. unfold exec. by rewrite fold_left_app. Qed.

Lemma ledger_snoc (evs : list Event) (ev : Event) :
  ledger (evs ++ [ev]) = note (ledger evs) ev.
Proof. unfold ledger. by rewrite fold_left_app. Qed.

Lemma invocation_note (book : list Entry) (ev : Event) :
  invocation <$> note book ev = (invocation <$> book) ++ invoked [ev].
Proof.
  destruct ev as [op args | i o]; simpl.
  - by rewrite fmap_app.
  - rewrite (right_id_L [] (++)).
    destruct (book !! i) as [[op args [o' |]] |] eqn:Hi; try done.
    rewrite list_fmap_insert. apply list_insert_id.
    by rewrite list_lookup_fmap, Hi.
Qed.

Lemma invocation_ledger (evs : list Event) :
  invocation <$> ledger evs = invoked evs.
Proof.
  induction evs as [| ev evs IH] using rev_ind; [done |].
  rewrite ledger_snoc, invocation_note, IH. unfold invoked.
  by rewrite omap_app.
Qed.

Lemma request_for_mono (w w' : World) (inv : Operation * list JSValue)
    (req : Request) :
  heap w `prefix_of` heap w' → request_for w inv req → request_for w' inv req.
Proof.
  intros Hprefix [Hmethod Hargument]. split; [done |].
  by apply argument_sent_mono with w.
Qed.

Lemma entry_task_outcome (e : Entry) (t : Task JSValue) :
  entry_task e t → settled_as e t.
Proof.
  unfold entry_task, settled_as, outcome_alone.
  destruct (ent_answer e) as [o |].
  - intros ->. by rewrite run_apply.
  - intros (req & k & -> & _). by exists req, k.
Qed.

(** Invoking keeps a configuration coherent: one request more, one task
    more, and for an operation with a parameter object one object more. *)
Lemma coherent_invoke (w0 : World) (book : list Entry) (cfg : Config)
    (op : Operation) (args : list JSValue) :
  coherent w0 book cfg →
  coherent w0 (note book (Invoke op args)) (step cfg (Invoke op args)).
Proof.
  intros (reqs & Hsent & Hheap & Hconsole & Hreqs & Hbound & Hnodup & Htasks).
  destruct (start_apply op args (world cfg)) as (k & Hstart & Hk).
  simpl. rewrite Hstart. simpl.
  set (w' := (issue op args (world cfg)).2).
  set (req := (issue op args (world cfg)).1).
  assert (Hgrow : heap (world cfg) `prefix_of` heap w') by apply heap_issue.
  exists (reqs ++ [req]). simpl.
  split; [| split; [| split; [| split; [| split; [| split]]]]].
  - subst w' req. rewrite sent_issue, Hsent. by rewrite <- (assoc_L (++)).
  - by etrans.
  - subst w'. by rewrite console_issue.
  - rewrite fmap_app. apply Forall2_app.
    + eapply Forall2_impl; [exact Hreqs |].
      intros inv r. by apply request_for_mono.
    + apply Forall2_cons. split; [| by apply Forall2_nil].
      split; [apply method_issue | apply argument_issue].
  - rewrite omap_app. apply Forall_app. split.
    + eapply Forall_impl; [exact Hbound |].
      intros l Hl. apply prefix_length in Hgrow. simpl in *. lia.
    + simpl. destruct (req_params req) as [l |] eqn:Hl; [| by apply Forall_nil].
      apply Forall_singleton. apply params_issue in Hl as [_ Hl].
      fold w' in Hl. lia.
  - rewrite omap_app. apply NoDup_app. split; [done |]. split.
    + intros l Hin Hnew. rewrite Forall_forall in Hbound.
      apply Hbound in Hin. simpl in Hnew.
      destruct (req_params req) as [l' |] eqn:Hl; [| by apply not_elem_of_nil in Hnew].
      apply list_elem_of_singleton in Hnew as ->.
      apply params_issue in Hl as [-> _]. lia.
    + simpl. destruct (req_params req); [apply NoDup_singleton | apply NoDup_nil_2].
  - apply Forall2_app; [done |].
    apply Forall2_cons. split; [| by apply Forall2_nil].
    unfold entry_task. simpl. by exists req, k.
Qed.

(** Delivering keeps a configuration coherent: the answer goes to a waiting
    task, which finishes without touching the world; any other delivery
    changes nothing. *)
Lemma coherent_deliver (w0 : World) (book : list Entry) (cfg : Config)
    (i : nat) (o : Settled RequestResponseData) :
  coherent w0 book cfg →
  coherent w0 (note book (Deliver i o)) (step cfg (Deliver i o))
  ∧ world (step cfg (Deliver i o)) = world cfg.
Proof.
  intros Hcoherent.
  pose proof Hcoherent as
    (reqs & Hsent & Hheap & Hconsole & Hreqs & Hbound & Hnodup & Htasks).
  simpl. destruct (book !! i) as [[op args answer] |] eqn:Hbook.
  - destruct (Forall2_lookup_l _ _ _ _ _ Htasks Hbook) as (t & Ht & Het).
    rewrite Ht. unfold entry_task in Het. simpl in Het.
    destruct answer as [o' |].
    + subst t. done.
    + destruct Het as (req & k & -> & Hk). rewrite Hk. simpl.
      split; [| done]. exists reqs. simpl.
      split; [done | split; [done | split; [done |]]].
      split; [| split; [done | split; [done |]]].
      * pose proof (invocation_note book (Deliver i o)) as Hnote.
        simpl in Hnote. rewrite Hbook, (right_id_L [] (++)) in Hnote.
        by rewrite Hnote.
      * by apply Forall2_insert.
  - assert (tasks cfg !! i = None) as ->.
    { apply lookup_ge_None. rewrite <- (Forall2_length _ _ _ Htasks).
      by apply lookup_ge_None. }
    done.
Qed.

Lemma coherent_step (w0 : World) (book : list Entry) (cfg : Config)
    (ev : Event) :
  coherent w0 book cfg → coherent w0 (note book ev) (step cfg ev).
Proof.
  destruct ev as [op args | i o].
  - apply coherent_invoke.
  - intros Hcoherent. by apply coherent_deliver.
Qed.

Lemma coherent_exec (w : World) (evs : list Event) :
  coherent w (ledger evs) (exec (initial w) evs).
Proof.
  induction evs as [| ev evs IH] using rev_ind.
  - exists []. simpl. rewrite (right_id_L [] (++)).
    repeat split; try done; constructor.
  - rewrite ledger_snoc, exec_snoc. by apply coherent_step.
Qed.

Lemma step_grows (w0 : World) (book : list Entry) (cfg : Config) (ev : Event) :
  coherent w0 book cfg →
  heap (world cfg) `prefix_of` heap (world (step cfg ev))
  ∧ sent (world cfg) `prefix_of` sent (world (step cfg ev)).
Proof.
  intros Hcoherent. destruct ev as [op args | i o].
  - destruct (start_apply op args (world cfg)) as (k & Hstart & _).
    simpl. rewrite Hstart. simpl. split; [apply heap_issue |].
    rewrite sent_issue. by apply prefix_app_r.
  - by destruct (coherent_deliver w0 book cfg i o Hcoherent) as [_ ->].
Qed.

Lemma exec_grows (w : World) (evs1 evs2 : list Event) :
  heap (world (exec (initial w) evs1))
    `prefix_of` heap (world (exec (initial w) (evs1 ++ evs2)))
  ∧ sent (world (exec (initial w) evs1))
    `prefix_of` sent (world (exec (initial w) (evs1 ++ evs2))).
Proof.
  induction evs2 as [| ev evs2 [IHheap IHsent]] using rev_ind.
  - by rewrite (right_id_L [] (++)).
  - rewrite (assoc_L (++)), exec_snoc.
    destruct (step_grows w _ _ ev (coherent_exec w (evs1 ++ evs2)))
      as [Hheap Hsent].
    split; by etrans.
Qed.

(** X7: however many invocations a schedule makes and however their answers
    are interleaved, delayed, repeated or never delivered, the requests sent
    are exactly one per invocation, in the order of the invocations, each
    with its operation's method name and the parameters built from its own
    arguments; no two requests share a parameter object, the heap only
    gains objects and nothing is printed. *)
Theorem requests_follow_invocations (w : World) (evs : list Event) :
  let cfg := exec (initial w) evs in
  ∃ reqs,
    sent (world cfg) = sent w ++ reqs
    ∧ Forall2 (request_for (world cfg)) (invoked evs) reqs
    ∧ NoDup (omap req_params reqs)
    ∧ heap w `prefix_of` heap (world cfg)
    ∧ console (world cfg) = console w.
Proof.
  destruct (coherent_exec w evs)
    as (reqs & Hsent & Hheap & Hconsole & Hreqs & _ & Hnodup & _).
  exists reqs. rewrite invocation_ledger in Hreqs. done.
Qed.

(** X8: in every schedule, an invocation whose call has not been answered
    is still waiting, and an answered one has finished with exactly the
    outcome it yields when it runs alone against the first answer delivered
    to it: other invocations, their answers, and later deliveries to the
    same invocation have no influence. *)
Theorem results_follow_answers (w : World) (evs : list Event) :
  invocation <$> ledger evs = invoked evs
  ∧ Forall2 settled_as (ledger evs) (tasks (exec (initial w) evs)).
Proof.
  split; [apply invocation_ledger |].
  destruct (coherent_exec w evs) as (_ & _ & _ & _ & _ & _ & _ & Htasks).
  eapply Forall2_impl; [exact Htasks | apply entry_task_outcome].
Qed.

(** X9: the request of an invocation keeps its place and its content.  The
    [n]-th invocation of a schedule has its request at the [n]-th place
    after the requests that were there before, with its operation's method
    name and the parameters built from its own arguments, and after any
    continuation of the schedule the same request stands at the same place
    and carries the same parameters. *)
Theorem invocation_request_persists (w : World) (evs1 evs2 : list Event)
    (n : nat) (op : Operation) (args : list JSValue) :
  invoked evs1 !! n = Some (op, args) →
  ∃ req,
    sent (world (exec (initial w) evs1)) !! (length (sent w) + n) = Some req
    ∧ sent (world (exec (initial w) (evs1 ++ evs2))) !! (length (sent w) + n)
      = Some req
    ∧ req_method req = method_name op
    ∧ argument_sent (world (exec (initial w) evs1)) req
      = Some (argument_of op args)
    ∧ argument_sent (world (exec (initial w) (evs1 ++ evs2))) req
      = Some (argument_of op args).
Proof.
  intros Hinvoked.
  destruct (coherent_exec w evs1)
    as (reqs & Hsent & _ & _ & Hreqs & _ & _ & _).
  rewrite invocation_ledger in Hreqs.
  destruct (Forall2_lookup_l _ _ _ _ _ Hreqs Hinvoked)
    as (req & Hreq & Hmethod & Hargument).
  destruct (exec_grows w evs1 evs2) as [Hheap Hprefix].
  assert (Hplace : sent (world (exec (initial w) evs1)) !! (length (sent w) + n)
                   = Some req).
  { rewrite Hsent, lookup_app_r by lia.
    by replace (length (sent w) + n - length (sent w)) with n by lia. }
  exists req.
  split; [exact Hplace | split; [| split; [exact Hmethod | split]]].
  - by apply prefix_lookup_Some with (sent (world (exec (initial w) evs1))).
  - exact Hargument.
  - by apply argument_sent_mono with (world (exec (initial w) evs1)).
Qed.

Lemma invocation_request_persists_alias :
  invoked [Deliver 0 (Rejected TypeError);
           Invoke GetNodeVersion [];
           Invoke Alias [JStr "bc/X"; JStr "xchain"]] !! 1
    = Some (Alias, [JStr "bc/X"; JStr "xchain"])
  ∧ ∃ req,
      sent (world (exec (initial empty_world)
                     ([Deliver 0 (Rejected TypeError);
                       Invoke GetNodeVersion [];
                       Invoke Alias [JStr "bc/X"; JStr "xchain"]]
                      ++ [Invoke LockProfile [JStr "lock.profile"];
                          Deliver 2 (Rejected (External (JStr "ECONNREFUSED")));
                          Deliver 1 (Fulfilled {| data := empty_result_data |})])))
        !! 1 = Some req
      ∧ req_method req = "info.alias"
      ∧ argument_sent
          (world (exec (initial empty_world)
                    ([Deliver 0 (Rejected TypeError);
                      Invoke GetNodeVersion [];
                      Invoke Alias [JStr "bc/X"; JStr "xchain"]]
                     ++ [Invoke LockProfile [JStr "lock.profile"];
                         Deliver 2 (Rejected (External (JStr "ECONNREFUSED")));
                         Deliver 1 (Fulfilled {| data := empty_result_data |})])))
          req
        = Some (Object {[ "endpoint" := JStr "bc/X"; "alias" := JStr "xchain" ]}).
Proof.
  split; [reflexivity |].
  destruct (invocation_request_persists empty_world
              [Deliver 0 (Rejected TypeError);
               Invoke GetNodeVersion [];
               Invoke Alias [JStr "bc/X"; JStr "xchain"]]
              [Invoke LockProfile [JStr "lock.profile"];
               Deliver 2 (Rejected (External (JStr "ECONNREFUSED")));
               Deliver 1 (Fulfilled {| data := empty_result_data |})]
              1 Alias [JStr "bc/X"; JStr "xchain"])
    as (req & _ & Hplace & Hmethod & _ & Hargument); [reflexivity |].
  exists req. split; [exact Hplace | split; [exact Hmethod | exact Hargument]].
Defined.
